(** * Perspective rectification and justified row layout

    A shallow embedding of the two numeric engines of the repository:

    - [solve], [getHomographyMatrix] and the pixel loop of
      [warpPerspective] (src/utils/perspectiveWarp.ts), and
    - [calculateLayout] with its local helper [processRow]
      (the layout engine, second part of the same source file).

    A JavaScript [number] is an IEEE-754 binary64 value; it is modelled by
    Rocq's primitive [float], whose operations are the same binary64
    operations (round to nearest, ties to even), so the definitions below
    can be run on concrete inputs.  The layout engine is written once, over
    an interface [Number] of the arithmetic it uses, and instantiated twice:
    at [float] (what the program computes) and at [Q] (exact arithmetic,
    used for the algebraic laws that hold only up to rounding on floats). *)

From Stdlib Require Import ZArith QArith Qfield Lqa Floats Uint63 Lia Bool.
From Stdlib Require Import Strings.String.
From stdpp Require Import base list.

Local Open Scope nat_scope.

(** ** JavaScript control flow and arrays *)

(** [for (let k = lo; k < hi; k++) body] as a state transformer. *)
Definition for_range {S : Type} (lo hi : nat) (body : nat -> S -> S) (s : S) : S :=
  fold_left (fun acc k => body k acc) (seq lo (hi - lo)) s.

(** [for (let i = n - 1; i > -1; i--) body]. *)
Definition for_down {S : Type} (n : nat) (body : nat -> S -> S) (s : S) : S :=
  fold_left (fun acc k => body k acc) (rev (seq 0 n)) s.

(** An integer-valued JavaScript number (an array length, a loop counter). *)
Definition of_nat (n : nat) : float := PrimFloat.of_uint63 (Uint63.of_Z (Z.of_nat n)).

(** [a[i]] on a [number[]].  Reading past the end yields [undefined]; every
    use of such a read in this program is arithmetic, where [undefined]
    is coerced to [NaN], so the slot is represented by [nan]. *)
Definition arr_get (a : list float) (i : nat) : float := default nan (a !! i).

(** [a[i] = v] on a [number[]]: in range the slot is overwritten, past the
    end the array is extended (the holes read back as [undefined]). *)
Definition arr_set (a : list float) (i : nat) (v : float) : list float :=
  if decide (i < length a) then <[i := v]> a
  else a ++ replicate (i - length a) nan ++ [v].

(** [A[r][c]] and [A[r][c] = v] on a [number[][]] whose rows are distinct
    array objects (as built by [getHomographyMatrix]).  The solver only
    indexes rows [r < A.length]. *)
Definition mat_get (A : list (list float)) (r c : nat) : float :=
  arr_get (default [] (A !! r)) c.

Definition mat_set (A : list (list float)) (r c : nat) (v : float) : list (list float) :=
  alter (fun row => arr_set row c v) r A.

(** ** The spec's error taxonomy, and how a call completes *)

Inductive CoreError : Type := DegenerateSystem | DegenerateSize | InvalidConfig.

Inductive Completion (A : Type) : Type :=
| Returned (v : A)
| Raised (e : CoreError).
Arguments Returned {A} v.
Arguments Raised {A} e.

(** ** LinearSolver: [solve] *)

(** Lines 12-19: search for the maximum of column [i] in rows [i..n-1]. *)
Definition find_pivot (A : list (list float)) (i n : nat) : float * nat :=
  for_range (i + 1) n
    (fun k '(maxEl, maxRow) =>
       if PrimFloat.ltb maxEl (PrimFloat.abs (mat_get A k i))
       then (PrimFloat.abs (mat_get A k i), k)
       else (maxEl, maxRow))
    (PrimFloat.abs (mat_get A i i), i).

(** Lines 22-26: swap rows [maxRow] and [i], columns [i..n-1]. *)
Definition swap_rows (A : list (list float)) (i maxRow n : nat) : list (list float) :=
  for_range i n
    (fun k A =>
       let tmp := mat_get A maxRow k in
       let A1 := mat_set A maxRow k (mat_get A i k) in
       mat_set A1 i k tmp)
    A.

(** Lines 27-29. *)
Definition swap_rhs (b : list float) (i maxRow : nat) : list float :=
  let tmp := arr_get b maxRow in
  let b1 := arr_set b maxRow (arr_get b i) in
  arr_set b1 i tmp.

(** Lines 33-41: one pass [k] of the elimination loop. *)
Definition eliminate_row (i n k : nat) (Ab : list (list float) * list float)
  : list (list float) * list float :=
  let '(A, b) := Ab in
  let c := PrimFloat.div (PrimFloat.opp (mat_get A k i)) (mat_get A i i) in
  let A' :=
    for_range i n
      (fun j A =>
         if Nat.eqb i j then mat_set A k j 0%float
         else mat_set A k j (PrimFloat.add (mat_get A k j) (PrimFloat.mul c (mat_get A i j))))
      A in
  (A', arr_set b k (PrimFloat.add (arr_get b k) (PrimFloat.mul c (arr_get b i)))).

(** Lines 10-43: the body of the outer loop, for pivot column [i]. *)
Definition forward_step (n i : nat) (Ab : list (list float) * list float)
  : list (list float) * list float :=
  let '(A, b) := Ab in
  let maxRow := (find_pivot A i n).2 in
  let A1 := swap_rows A i maxRow n in
  let b1 := swap_rhs b i maxRow in
  for_range (i + 1) n (eliminate_row i n) (A1, b1).

Definition forward (n : nat) (A : list (list float)) (b : list float)
  : list (list float) * list float :=
  for_range 0 n (forward_step n) (A, b).

(** Lines 46-53: back substitution on the eliminated system. *)
Definition back_substitute (n : nat) (A : list (list float)) (b : list float) : list float :=
  for_down n
    (fun i x =>
       let sum :=
         for_range (i + 1) n
           (fun j sum => PrimFloat.add sum (PrimFloat.mul (mat_get A i j) (arr_get x j)))
           0%float in
       arr_set x i (PrimFloat.div (PrimFloat.sub (arr_get b i) sum) (mat_get A i i)))
    (replicate n 0%float).

(** [solve] works in place: [solve_run] returns, next to the result [x],
    the contents of the caller's [A] and [b] when the call returns. *)
Definition solve_run (A : list (list float)) (b : list float)
  : list (list float) * list float * list float :=
  let n := length A in
  let '(A', b') := forward n A b in
  (A', b', back_substitute n A' b').

Definition solve (A : list (list float)) (b : list float) : list float :=
  (solve_run A b).2.

(** The body of [solve] has no [throw] and no pivot test: a call always
    completes by returning its vector. *)
Definition solve_call (A : list (list float)) (b : list float) : Completion (list float) :=
  Returned (solve A b).

(** A number that is not finite: [Infinity], [-Infinity] or [NaN]. *)
Definition not_finite (v : float) : bool :=
  PrimFloat.is_nan v || PrimFloat.is_infinity v.

(** ** HomographyEstimator: [getHomographyMatrix] *)

Module Point.
Record t : Type := mk { x : float; y : float }.
End Point.

(** Lines 63-70, for the correspondence [(s, d)]: the two rows pushed on
    [A] and the two entries pushed on [b]. *)
Definition homography_rows (s d : Point.t) : list (list float) * list float :=
  let sx := Point.x s in let sy := Point.y s in
  let dx := Point.x d in let dy := Point.y d in
  ([ [dx; dy; 1%float; 0%float; 0%float; 0%float;
      PrimFloat.mul (PrimFloat.opp sx) dx; PrimFloat.mul (PrimFloat.opp sx) dy];
     [0%float; 0%float; 0%float; dx; dy; 1%float;
      PrimFloat.mul (PrimFloat.opp sy) dx; PrimFloat.mul (PrimFloat.opp sy) dy] ],
   [sx; sy]).

(** The loop [for (let i = 0; i < 4; i++)].  [src[i]] or [dst[i]] past the
    end is [undefined], and reading its [.x] throws a TypeError: [None]. *)
Definition homography_system (src dst : list Point.t)
  : option (list (list float) * list float) :=
  for_range 0 4
    (fun i acc =>
       '(A, b) ← acc;
       s ← src !! i;
       d ← dst !! i;
       let '(rows, rhs) := homography_rows s d in
       Some (A ++ rows, b ++ rhs))
    (Some ([], [])).

Definition getHomographyMatrix (src dst : list Point.t) : option (list float) :=
  '(A, b) ← homography_system src dst;
  Some (solve A b ++ [1%float]).

(** ** PerspectiveResampler: the pixel loop of [warpPerspective] *)











(** ** RowLayoutEngine: [calculateLayout] *)

(** The arithmetic [calculateLayout] performs on numbers. *)
Class Number (F : Type) : Type := {
  num_add : F -> F -> F;
  num_sub : F -> F -> F;
  num_mul : F -> F -> F;
  num_div : F -> F -> F;
  num_gt : F -> F -> bool;       (* a > b *)
  num_ge : F -> F -> bool;       (* a >= b *)
  num_of_nat : nat -> F;         (* an array length as a number *)
  num_1_5 : F;                   (* the literal 1.5 *)
}.

(** JavaScript numbers. *)
#[global] Instance float_Number : Number float := {|
  num_add := PrimFloat.add;
  num_sub := PrimFloat.sub;
  num_mul := PrimFloat.mul;
  num_div := PrimFloat.div;
  num_gt := fun a b => PrimFloat.ltb b a;
  num_ge := fun a b => PrimFloat.leb b a;
  num_of_nat := of_nat;
  num_1_5 := 1.5%float;
|}.

(** Exact rational arithmetic. *)
#[global] Instance Q_Number : Number Q := {|
  num_add := Qplus;
  num_sub := Qminus;
  num_mul := Qmult;
  num_div := Qdiv;
  num_gt := fun a b => negb (Qle_bool a b);
  num_ge := fun a b => Qle_bool b a;
  num_of_nat := fun n => inject_Z (Z.of_nat n);
  num_1_5 := 3 # 2;
|}.

Section Layout.
Context {F : Type} `{Number F}.

(** [UploadedImage] (the [File] object and its object URL are opaque
    handles; [id] stands for them). *)
Record UploadedImage : Type := mkImage {
  id : string;
  imgWidth : F;
  imgHeight : F;
  aspectRatio : F;
}.

Record LayoutConfig : Type := mkConfig {
  canvasSize : F;
  gap : F;
  backgroundColor : string;
  targetRowHeightRatio : F;
}.

Record PositionedImage : Type := mkPositioned {
  image : UploadedImage;
  x : F;
  y : F;
  width : F;
  height : F;
}.

(** [rowImages.reduce((sum, img) => sum + img.aspectRatio, 0)]. *)
Definition totalAspect (rowImages : list UploadedImage) : F :=
  fold_left (fun sum img => num_add sum (aspectRatio img)) rowImages (num_of_nat 0).

Definition targetRowHeightOf (config : LayoutConfig) : F :=
  num_mul (canvasSize config) (targetRowHeightRatio config).

(** Lines 240-247: the height that makes the row fill the canvas. *)
Definition fillHeight (config : LayoutConfig) (rowImages : list UploadedImage) : F :=
  let totalAspectRatio := totalAspect rowImages in
  let totalGapWidth := num_mul (num_of_nat (length rowImages + 1)) (gap config) in
  let availableWidth := num_sub (canvasSize config) totalGapWidth in
  num_div availableWidth totalAspectRatio.

(** Lines 247-253: [rowHeight] after the last-row cap. *)
Definition rowHeightOf (config : LayoutConfig) (rowImages : list UploadedImage)
    (isLastRow : bool) : F :=
  let rowHeight := fillHeight config rowImages in
  if isLastRow && num_gt rowHeight (num_mul (targetRowHeightOf config) num_1_5)
  then targetRowHeightOf config
  else rowHeight.

(** Lines 255-267: [rowImages.forEach], from [currentX] on. *)
Fixpoint placeRow (gapv rowHeight currentY : F) (rowImages : list UploadedImage)
    (currentX : F) : list PositionedImage :=
  match rowImages with
  | [] => []
  | img :: rest =>
      let w := num_mul rowHeight (aspectRatio img) in
      mkPositioned img currentX currentY w rowHeight
        :: placeRow gapv rowHeight currentY rest (num_add currentX (num_add w gapv))
  end.

(** The variables [calculateLayout] mutates. *)
Record LayoutState : Type := mkState {
  layout : list PositionedImage;
  currentRow : list UploadedImage;
  currentY : F;
}.

(** Lines 236-270: [processRow], which appends to [layout] and advances
    [currentY]. *)
Definition processRow (config : LayoutConfig) (rowImages : list UploadedImage)
    (isLastRow : bool) (st : LayoutState) : LayoutState :=
  match rowImages with
  | [] => st
  | _ :: _ =>
      let rowHeight := rowHeightOf config rowImages isLastRow in
      mkState
        (layout st ++ placeRow (gap config) rowHeight (currentY st) rowImages (gap config))
        (currentRow st)
        (num_add (currentY st) (num_add rowHeight (gap config)))
  end.

(** Line 281. *)
Definition widthAtTargetHeight (config : LayoutConfig) (row : list UploadedImage) : F :=
  num_add
    (num_mul (targetRowHeightOf config) (totalAspect row))
    (num_mul (num_of_nat (length row + 1)) (gap config)).

(** Lines 272-287: one iteration of [for (const img of images)].  The
  unused local [currentContentWidth] of line 277 is left out. *)
Definition layoutStep (config : LayoutConfig) (st : LayoutState) (img : UploadedImage)
    : LayoutState :=
  let row := currentRow st ++ [img] in
  if num_ge (widthAtTargetHeight config row) (canvasSize config) then
    let st' := processRow config row false st in
    mkState (layout st') [] (currentY st')
  else mkState (layout st) row (currentY st).

Definition initialState (config : LayoutConfig) : LayoutState :=
  mkState [] [] (gap config).

Definition layoutLoop (config : LayoutConfig) (images : list UploadedImage) : LayoutState :=
  fold_left (layoutStep config) images (initialState config).

Definition calculateLayout (images : list UploadedImage) (config : LayoutConfig)
    : list PositionedImage :=
  match images with
  | [] => []
  | _ :: _ =>
      let st := layoutLoop config images in
      match currentRow st with
      | [] => layout st
      | _ :: _ => layout (processRow config (currentRow st) true st)
      end
  end.

(** [calculateLayout] validates nothing and has no [throw]: a call
    always completes by returning its placement list. *)
Definition calculateLayout_call (images : list UploadedImage) (config : LayoutConfig)
    : Completion (list PositionedImage) :=
  Returned (calculateLayout images config).

End Layout.

Arguments UploadedImage F : clear implicits.
Arguments LayoutConfig F : clear implicits.
Arguments PositionedImage F : clear implicits.
Arguments LayoutState F : clear implicits.


(** ** Concrete inputs used in the examples *)

Definition square_item : UploadedImage float := mkImage "sq" 100%float 100%float 1%float.

(** The scenario of the spec: four square images on a 400 pixel canvas. *)
Definition scenario_items : list (UploadedImage float) :=
  [square_item; square_item; square_item; square_item].

Definition scenario_config : LayoutConfig float :=
  mkConfig 400%float 0%float "#000000" 0.5%float.

Definition zero_canvas_config : LayoutConfig float :=
  mkConfig 0%float 0%float "#000000" 0.5%float.

Definition zero_ratio_config : LayoutConfig float :=
  mkConfig 1000%float 15%float "#000000" 0%float.








(** ** Predicates used in the proofs *)




(** Systems used in the examples. *)
Definition zero_row_A : list (list float) := [[1; 2]; [0; 0]]%float.
Definition zero_row_b : list float := [3; 4]%float.


Definition unit_square : list Point.t :=
  [Point.mk 0 0; Point.mk 1 0; Point.mk 1 1; Point.mk 0 1]%float.





(** The caller's arrays when the elimination reaches pivot column [i]. *)
Definition forward_upto (n i : nat) (A : list (list float)) (b : list float)
  : list (list float) * list float :=
  for_range 0 i (forward_step n) (A, b).

(** The pivot selected for column [i]: the entry of largest magnitude that
    the search of lines 12-19 finds, which the swap moves to [A[i][i]]. *)
Definition selected_pivot (A : list (list float)) (b : list float) (i : nat) : float :=
  let Ai := (forward_upto (length A) i A b).1 in
  mat_get Ai (find_pivot Ai i (length A)).2 i.

(** Classes of numbers, read off the IEEE-754 datum. *)
Definition is_zero_SF (f : float) : Prop := exists s, Prim2SF f = S754_zero s.
Definition is_nan_SF (f : float) : Prop := Prim2SF f = S754_nan.

(** Four coincident corners, and the destination rectangle of a 2 x 1 patch. *)
Definition coincident_corners : list Point.t :=
  [Point.mk 5 5; Point.mk 5 5; Point.mk 5 5; Point.mk 5 5]%float.

Definition patch_corners : list Point.t :=
  [Point.mk 0 0; Point.mk 2 0; Point.mk 2 1; Point.mk 0 1]%float.


(** * Properties *)

(** ** Loops *)

Lemma for_range_inv {S : Type} (P : nat -> S -> Prop) (lo hi : nat)
    (body : nat -> S -> S) (s : S) :
  lo <= hi ->
  P lo s ->
  (forall k t, lo <= k < hi -> P k t -> P (Datatypes.S k) (body k t)) ->
  P hi (for_range lo hi body s).
Proof.
  unfold for_range. intros Hle.
  remember (hi - lo) as d eqn:Hd.
  revert lo s Hle Hd. induction d as [|d IH]; intros lo s Hle Hd H0 Hstep.
  - simpl. replace hi with lo by lia. exact H0.
  - simpl. apply IH; [lia | lia | | ].
    + apply Hstep; [lia | exact H0].
    + intros k t Hk. apply Hstep. lia.
Qed.

Lemma for_range_empty {S : Type} (lo hi : nat) (body : nat -> S -> S) (s : S) :
  hi <= lo -> for_range lo hi body s = s.
Proof. intros Hle. unfold for_range. replace (hi - lo) with 0 by lia. reflexivity. Qed.

(** ** Layout engine: structure of the output *)

Section LayoutFacts.
Context {F : Type} `{Number F}.

Lemma placeRow_images (g h yy : F) (row : list (UploadedImage F)) (x0 : F) :
  map image (placeRow g h yy row x0) = row.
Proof.
  revert x0. induction row as [|img row IH]; intros x0; simpl; [reflexivity|].
  f_equal. apply IH.
Qed.

Lemma placeRow_height (g h yy : F) (row : list (UploadedImage F)) (x0 : F) :
  Forall (fun r => height r = h /\ y r = yy) (placeRow g h yy row x0).
Proof.
  revert x0. induction row as [|img row IH]; intros x0; simpl; constructor; auto.
Qed.

Lemma processRow_layout (config : LayoutConfig F) (row : list (UploadedImage F))
    (isLastRow : bool) (st : LayoutState F) :
  layout (processRow config row isLastRow st)
  = layout st ++ placeRow (gap config) (rowHeightOf config row isLastRow)
                   (currentY st) row (gap config).
Proof.
  destruct row as [|img row]; simpl; [by rewrite app_nil_r | reflexivity].
Qed.

Lemma rowHeightOf_regular (config : LayoutConfig F) (row : list (UploadedImage F)) :
  rowHeightOf config row false = fillHeight config row.
Proof. reflexivity. Qed.

Lemma layoutStep_images (config : LayoutConfig F) (st : LayoutState F)
    (img : UploadedImage F) :
  map image (layout (layoutStep config st img)) ++ currentRow (layoutStep config st img)
  = (map image (layout st) ++ currentRow st) ++ [img].
Proof.
  unfold layoutStep.
  destruct (num_ge _ _); simpl.
  - rewrite processRow_layout, map_app, placeRow_images.
    by rewrite app_nil_r, app_assoc.
  - by rewrite app_assoc.
Qed.

Lemma layoutFold_images (config : LayoutConfig F) (images : list (UploadedImage F))
    (st : LayoutState F) :
  let st' := fold_left (layoutStep config) images st in
  map image (layout st') ++ currentRow st'
  = (map image (layout st) ++ currentRow st) ++ images.
Proof.
  revert st. induction images as [|img images IH]; intros st; simpl.
  - by rewrite app_nil_r.
  - rewrite IH, layoutStep_images. by rewrite <- app_assoc.
Qed.

Lemma layoutLoop_snoc (config : LayoutConfig F) (pre : list (UploadedImage F))
    (last : UploadedImage F) :
  layoutLoop config (pre ++ [last]) = layoutStep config (layoutLoop config pre) last.
Proof. unfold layoutLoop. by rewrite fold_left_app. Qed.

Lemma calculateLayout_images (images : list (UploadedImage F)) (config : LayoutConfig F) :
  map image (calculateLayout images config) = images.
Proof.
  unfold calculateLayout. destruct images as [|i0 images]; [reflexivity|].
  set (st := layoutLoop config (i0 :: images)).
  assert (Hinv : map image (layout st) ++ currentRow st = i0 :: images)
    by apply (layoutFold_images config (i0 :: images) (initialState config)).
  destruct (currentRow st) as [|r0 row] eqn:Hrow.
  - by rewrite app_nil_r in Hinv.
  - by rewrite processRow_layout, map_app, placeRow_images.
Qed.

End LayoutFacts.


(** ** Layout engine: claims that hold for any arithmetic *)

(** C2 (as the code has it): [calculateLayout] validates nothing.  For
    every item sequence and every configuration, malformed or not, the call
    returns normally, with exactly one placement per item, in input order. *)
Theorem calculateLayout_never_fails {F : Type} `{Number F}
    (images : list (UploadedImage F)) (config : LayoutConfig F) :
  exists rects : list (PositionedImage F),
    calculateLayout_call images config = Returned rects
    /\ map image rects = images.
Proof.
  exists (calculateLayout images config). split; [reflexivity|].
  apply calculateLayout_images.
Qed.

(** C2 as stated fails: with [canvasSize = 0], and with
    [targetRowHeightRatio = 0], the call returns a placement (of width and
    height 0) instead of raising [InvalidConfig]. *)
Lemma calculateLayout_accepts_malformed_config :
  calculateLayout_call [square_item] zero_canvas_config
    = Returned [mkPositioned square_item 0%float 0%float 0%float 0%float]
  /\ calculateLayout_call [square_item] zero_canvas_config <> Raised InvalidConfig
  /\ calculateLayout_call [square_item] zero_ratio_config
    = Returned [mkPositioned square_item 15%float 15%float 0%float 0%float]
  /\ calculateLayout_call [square_item] zero_ratio_config <> Raised InvalidConfig.
Proof. repeat split; (vm_compute; reflexivity) || discriminate. Qed.

(** C3: four square images, [canvasSize = 400], [gap = 0],
    [targetRowHeightRatio = 0.5]: four placements of 200 x 200, two rows of
    two, at [y = 0] and [y = 200]. *)
Theorem scenario_layout :
  calculateLayout scenario_items scenario_config
  = [ mkPositioned square_item 0%float 0%float 200%float 200%float;
      mkPositioned square_item 200%float 0%float 200%float 200%float;
      mkPositioned square_item 0%float 200%float 200%float 200%float;
      mkPositioned square_item 200%float 200%float 200%float 200%float ].
Proof. vm_compute. reflexivity. Qed.

(** C5: when items are left over after the loop, the trailing row is
    placed with height [targetRowHeight] if the fill height exceeds
    [1.5 * targetRowHeight], and with the fill height otherwise. *)
Theorem last_row_height_policy {F : Type} `{Number F}
    (images : list (UploadedImage F)) (config : LayoutConfig F) :
  let st := layoutLoop config images in
  let target := num_mul (canvasSize config) (targetRowHeightRatio config) in
  let computed := fillHeight config (currentRow st) in
  currentRow st <> [] ->
  exists rects : list (PositionedImage F),
    calculateLayout images config = layout st ++ rects
    /\ map image rects = currentRow st
    /\ Forall (fun r =>
                 height r = if num_gt computed (num_mul target num_1_5)
                            then target else computed) rects.
Proof.
  intros st target computed Hrow.
  unfold calculateLayout.
  destruct images as [|i0 images]; [exfalso; apply Hrow; reflexivity|].
  change (layoutLoop config (i0 :: images)) with st.
  destruct (currentRow st) as [|r0 row] eqn:Erow; [done|].
  rewrite processRow_layout.
  eexists; split; [reflexivity|]. split; [apply placeRow_images|].
  eapply Forall_impl; [apply placeRow_height|].
  intros r [-> _]. unfold rowHeightOf. simpl andb.
  reflexivity.
Qed.

Lemma last_row_height_policy_witness :
  currentRow (layoutLoop scenario_config [square_item]) <> []
  /\ exists rects : list (PositionedImage float),
       calculateLayout [square_item] scenario_config
       = layout (layoutLoop scenario_config [square_item]) ++ rects
       /\ map image rects = currentRow (layoutLoop scenario_config [square_item])
       /\ Forall (fun r => height r = 200%float) rects.
Proof.
  assert (Hrow : currentRow (layoutLoop scenario_config [square_item]) <> [])
    by (vm_compute; discriminate).
  split; [exact Hrow|].
  exact (last_row_height_policy [square_item] scenario_config Hrow).
Defined.

(** C10: when appending the final item makes [widthAtTargetHeight] reach
    [canvasSize], that row is finalized inside the loop as a regular row (fill
    height, no cap), the row buffer is empty when the loop ends, and the
    result is the loop's layout: no row is finalized as a last row. *)
Theorem full_final_row_is_regular {F : Type} `{Number F}
    (pre : list (UploadedImage F)) (last : UploadedImage F) (config : LayoutConfig F) :
  let st := layoutLoop config pre in
  let row := currentRow st ++ [last] in
  num_ge (widthAtTargetHeight config row) (canvasSize config) = true ->
  currentRow (layoutLoop config (pre ++ [last])) = []
  /\ calculateLayout (pre ++ [last]) config = layout (layoutLoop config (pre ++ [last]))
  /\ layout (layoutLoop config (pre ++ [last])) = layout (processRow config row false st)
  /\ layout (processRow config row false st)
     = layout st ++ placeRow (gap config) (fillHeight config row) (currentY st) row (gap config).
Proof.
  intros st row Hfull.
  assert (Hstep : layoutLoop config (pre ++ [last])
                  = mkState (layout (processRow config row false st)) []
                      (currentY (processRow config row false st))).
  { rewrite layoutLoop_snoc. unfold layoutStep. fold st. fold row. by rewrite Hfull. }
  split; [by rewrite Hstep|]. split; [|split].
  - unfold calculateLayout.
    destruct (pre ++ [last]) as [|i0 rest] eqn:E; [by destruct pre|].
    by rewrite Hstep.
  - by rewrite Hstep.
  - by rewrite processRow_layout.
Qed.

Lemma full_final_row_is_regular_witness :
  num_ge (widthAtTargetHeight scenario_config
            (currentRow (layoutLoop scenario_config [square_item]) ++ [square_item]))
         (canvasSize scenario_config) = true
  /\ currentRow (layoutLoop scenario_config ([square_item] ++ [square_item])) = []
  /\ calculateLayout ([square_item] ++ [square_item]) scenario_config
     = layout (layoutLoop scenario_config ([square_item] ++ [square_item])).
Proof.
  assert (Hfull : num_ge (widthAtTargetHeight scenario_config
                    (currentRow (layoutLoop scenario_config [square_item]) ++ [square_item]))
                    (canvasSize scenario_config) = true)
    by (vm_compute; reflexivity).
  split; [exact Hfull|].
  pose proof (full_final_row_is_regular [square_item] square_item scenario_config Hfull)
    as (H1 & H2 & _).
  split; [exact H1 | exact H2].
Defined.


(** ** Layout engine: exact arithmetic *)

Section ExactLayout.
Local Open Scope Q_scope.

Implicit Types (config : LayoutConfig Q) (row : list (UploadedImage Q)).









End ExactLayout.


Section ExactLayoutExamples.
Local Open Scope Q_scope.


End ExactLayoutExamples.



(** ** Layout engine: signs of the placements (exact arithmetic) *)

Section NonNegative.
Local Open Scope Q_scope.

Variable config : LayoutConfig Q.
Variable N : nat.
Hypothesis canvas_pos : 0 < canvasSize config.
Hypothesis gap_nonneg : 0 <= gap config.
Hypothesis ratio_pos : 0 < targetRowHeightRatio config.
Hypothesis gaps_fit : inject_Z (Z.of_nat (N + 1)) * gap config <= canvasSize config.









End NonNegative.

Section NonNegativeClaim.
Local Open Scope Q_scope.



End NonNegativeClaim.



(** ** Arrays *)

Lemma arr_get_set_eq (a : list float) (i : nat) (v : float) :
  arr_get (arr_set a i v) i = v.
Proof.
  unfold arr_get, arr_set. case_decide as Hi.
  - by rewrite list_lookup_insert_eq.
  - rewrite lookup_app_r by lia. rewrite lookup_app_r; rewrite length_replicate; [|lia].
    by replace (i - length a - (i - length a)) with 0 by lia.
Qed.

Lemma arr_get_set_ne (a : list float) (i j : nat) (v : float) :
  i <> j -> arr_get (arr_set a i v) j = arr_get a j.
Proof.
  intros Hne. unfold arr_get, arr_set. case_decide as Hi.
  - by rewrite list_lookup_insert_ne.
  - destruct (decide (j < length a)) as [Hj|Hj].
    + by rewrite lookup_app_l.
    + rewrite lookup_app_r by lia. rewrite (lookup_ge_None_2 a j) by lia. simpl.
      destruct (decide (j - length a < i - length a)) as [Hlt|Hge].
      * rewrite lookup_app_l by (rewrite length_replicate; lia).
        by rewrite lookup_replicate_2.
      * rewrite lookup_app_r by (rewrite length_replicate; lia).
        rewrite length_replicate.
        destruct (j - length a - (i - length a)) as [|m] eqn:E; [lia|]. reflexivity.
Qed.

Lemma length_arr_set (a : list float) (i : nat) (v : float) :
  i < length a -> length (arr_set a i v) = length a.
Proof. intros Hi. unfold arr_set. rewrite decide_True by done. apply length_insert. Qed.

Lemma length_mat_set (A : list (list float)) (r c : nat) (v : float) :
  length (mat_set A r c v) = length A.
Proof. apply length_alter. Qed.

Lemma mat_get_set_eq (A : list (list float)) (r c : nat) (v : float) :
  r < length A -> mat_get (mat_set A r c v) r c = v.
Proof.
  intros Hr. unfold mat_get, mat_set. rewrite list_lookup_alter_eq.
  destruct (lookup_lt_is_Some_2 A r Hr) as [row ->]. simpl. apply arr_get_set_eq.
Qed.

Lemma mat_get_set_ne (A : list (list float)) (r c r' c' : nat) (v : float) :
  r <> r' \/ c <> c' -> mat_get (mat_set A r c v) r' c' = mat_get A r' c'.
Proof.
  intros Hne. unfold mat_get, mat_set.
  destruct (decide (r = r')) as [<-|Hr].
  - rewrite list_lookup_alter_eq. destruct (A !! r) as [row|]; simpl; [|reflexivity].
    apply arr_get_set_ne. destruct Hne; [done | assumption].
  - by rewrite list_lookup_alter_ne.
Qed.

(** ** Linear solver: what the call does to the caller's matrix *)

Lemma swap_rows_frame (A : list (list float)) (i maxRow n : nat) :
  length (swap_rows A i maxRow n) = length A
  /\ forall r c, c < i -> mat_get (swap_rows A i maxRow n) r c = mat_get A r c.
Proof.
  unfold swap_rows. destruct (decide (i <= n)) as [Hle|Hgt].
  - apply (for_range_inv
             (fun k B => length B = length A
                         /\ forall r c, c < i -> mat_get B r c = mat_get A r c));
      [exact Hle | done |].
    intros k B Hk [Hlen Hfr]. split.
    + by rewrite !length_mat_set.
    + intros r c Hc. rewrite !mat_get_set_ne by (right; lia). by apply Hfr.
  - rewrite for_range_empty by lia. done.
Qed.

Lemma eliminate_row_frame (i n k : nat) (A : list (list float)) (b : list float) :
  i < k < n -> k < length A ->
  let A' := (eliminate_row i n k (A, b)).1 in
  length A' = length A
  /\ mat_get A' k i = 0%float
  /\ forall r c, r <> k \/ c < i -> mat_get A' r c = mat_get A r c.
Proof.
  intros Hk HkA. unfold eliminate_row. simpl.
  set (c0 := PrimFloat.div _ _).
  pose proof (for_range_inv
    (fun j B => length B = length A
                /\ (i < j -> mat_get B k i = 0%float)
                /\ forall r c, r <> k \/ c < i -> mat_get B r c = mat_get A r c)
    i n
    (fun j B =>
       if Nat.eqb i j then mat_set B k j 0%float
       else mat_set B k j (PrimFloat.add (mat_get B k j) (PrimFloat.mul c0 (mat_get B i j))))
    A) as Hinv.
  destruct Hinv as (Hlen & Hz & Hfr); [lia | | | ].
  - split; [done|]. split; [lia | done].
  - intros j B Hj (Hlen & Hz & Hfr). destruct (Nat.eqb_spec i j) as [<-|Hij].
    + split; [by rewrite length_mat_set|]. split.
      * intros _. apply mat_get_set_eq. lia.
      * intros r c Hrc. rewrite mat_get_set_ne by (destruct Hrc; [left|right]; lia).
        by apply Hfr.
    + split; [by rewrite length_mat_set|]. split.
      * intros _. rewrite mat_get_set_ne by (right; lia). apply Hz. lia.
      * intros r c Hrc. rewrite mat_get_set_ne by (destruct Hrc; [left|right]; lia).
        by apply Hfr.
  - split; [exact Hlen|]. split; [apply Hz; lia | exact Hfr].
Qed.




(** ** Linear solver: back substitution *)

Lemma for_down_S {S : Type} (m : nat) (body : nat -> S -> S) (s : S) :
  for_down (Datatypes.S m) body s = for_down m body (body m s).
Proof. unfold for_down. rewrite seq_S, rev_app_distr. reflexivity. Qed.

Lemma for_down_inv {S : Type} (P : S -> Prop) (n : nat) (body : nat -> S -> S) (s : S) :
  P s -> (forall k t, k < n -> P t -> P (body k t)) -> P (for_down n body s).
Proof.
  revert s. induction n as [|m IH]; intros s Hs Hstep; [exact Hs|].
  rewrite for_down_S. apply IH.
  - apply Hstep; [lia | exact Hs].
  - intros k t Hk. apply Hstep. lia.
Qed.

Lemma length_back_substitute (n : nat) (A : list (list float)) (b : list float) :
  length (back_substitute n A b) = n.
Proof.
  unfold back_substitute.
  apply (for_down_inv (fun x => length x = n)); [apply length_replicate|].
  intros k x Hk Hx. rewrite length_arr_set; [exact Hx | lia].
Qed.

Lemma back_substitute_last (m : nat) (A : list (list float)) (b : list float) :
  arr_get (back_substitute (S m) A b) m
  = PrimFloat.div (PrimFloat.sub (arr_get b m) 0%float) (mat_get A m m).
Proof.
  unfold back_substitute. rewrite for_down_S. cbv beta.
  rewrite (for_range_empty (m + 1) (S m)) by lia.
  set (v := PrimFloat.div _ _).
  apply (for_down_inv (fun x => length x = S m /\ arr_get x m = v)).
  - split; [|apply arr_get_set_eq].
    rewrite length_arr_set; rewrite length_replicate; lia.
  - intros k x Hk [Hlen Hv]. split.
    + rewrite length_arr_set; [exact Hlen | lia].
    + rewrite arr_get_set_ne by lia. exact Hv.
Qed.



(** ** Numbers: zeros and NaN *)

Lemma is_zero_SF_of_is_zero (z : float) : PrimFloat.is_zero z = true -> is_zero_SF z.
Proof.
  unfold PrimFloat.is_zero, is_zero_SF. rewrite FloatAxioms.eqb_spec.
  change (Prim2SF 0%float) with (S754_zero false).
  destruct (Prim2SF z) as [s|s| |s m e]; [by exists s | | | ];
    try destruct s; cbv; discriminate.
Qed.

Lemma is_zero_of_is_zero_SF (z : float) : is_zero_SF z -> PrimFloat.is_zero z = true.
Proof.
  intros [s Hs]. unfold PrimFloat.is_zero. rewrite FloatAxioms.eqb_spec, Hs.
  reflexivity.
Qed.

Lemma not_finite_of_SF (f : float) :
  Prim2SF f = S754_nan \/ (exists s, Prim2SF f = S754_infinity s) ->
  not_finite f = true.
Proof.
  unfold not_finite, PrimFloat.is_nan, PrimFloat.is_infinity.
  rewrite !FloatAxioms.eqb_spec, FloatAxioms.abs_spec.
  change (Prim2SF infinity) with (S754_infinity false).
  intros [-> | [s ->]]; [reflexivity | ].
  apply orb_true_r.
Qed.

Lemma div_by_zero_not_finite (t z : float) :
  is_zero_SF z -> not_finite (PrimFloat.div t z) = true.
Proof.
  intros [s Hs].
  apply not_finite_of_SF. rewrite FloatAxioms.div_spec, Hs.
  unfold SF64div, SFdiv.
  destruct (Prim2SF t) as [st|st| |st mt et]; eauto.
Qed.

Lemma abs_zero (a : float) : is_zero_SF a -> is_zero_SF (PrimFloat.abs a).
Proof.
  intros [s Hs]. exists false. by rewrite FloatAxioms.abs_spec, Hs.
Qed.

Lemma abs_zero_inv (a : float) : is_zero_SF (PrimFloat.abs a) -> is_zero_SF a.
Proof.
  intros [s Hs]. rewrite FloatAxioms.abs_spec in Hs. unfold is_zero_SF.
  destruct (Prim2SF a) as [sa|sa| |sa ma ea]; try discriminate. by exists sa.
Qed.

(** No magnitude is below zero. *)
Lemma abs_not_below_zero (m z : float) :
  is_zero_SF z -> PrimFloat.ltb (PrimFloat.abs m) z = false.
Proof.
  intros [s Hs]. rewrite FloatAxioms.ltb_spec, FloatAxioms.abs_spec, Hs.
  destruct (Prim2SF m) as [sm|sm| |sm mm em]; reflexivity.
Qed.

(** A number whose magnitude does not exceed zero is a zero or [NaN]. *)
Lemma not_above_zero (m a : float) :
  is_zero_SF m -> PrimFloat.ltb m (PrimFloat.abs a) = false ->
  is_zero_SF a \/ is_nan_SF a.
Proof.
  intros [s Hs]. rewrite FloatAxioms.ltb_spec, FloatAxioms.abs_spec, Hs.
  unfold is_zero_SF, is_nan_SF.
  destruct (Prim2SF a) as [sa|sa| |sa ma ea]; cbv; eauto; discriminate.
Qed.

Lemma nan_add_l (a b : float) : is_nan_SF a -> is_nan_SF (PrimFloat.add a b).
Proof. unfold is_nan_SF. intros Ha. by rewrite FloatAxioms.add_spec, Ha. Qed.

Lemma nan_add_r (a b : float) : is_nan_SF b -> is_nan_SF (PrimFloat.add a b).
Proof.
  unfold is_nan_SF. intros Hb. rewrite FloatAxioms.add_spec, Hb.
  by destruct (Prim2SF a).
Qed.

Lemma nan_sub_l (a b : float) : is_nan_SF a -> is_nan_SF (PrimFloat.sub a b).
Proof. unfold is_nan_SF. intros Ha. by rewrite FloatAxioms.sub_spec, Ha. Qed.

Lemma nan_mul_l (a b : float) : is_nan_SF a -> is_nan_SF (PrimFloat.mul a b).
Proof. unfold is_nan_SF. intros Ha. by rewrite FloatAxioms.mul_spec, Ha. Qed.

Lemma nan_div_l (a b : float) : is_nan_SF a -> is_nan_SF (PrimFloat.div a b).
Proof. unfold is_nan_SF. intros Ha. by rewrite FloatAxioms.div_spec, Ha. Qed.

(** The elimination factor [-a / p] for a zero pivot [p] and an entry [a]
    of magnitude at most zero: [0 / 0] or [NaN / 0]. *)
Lemma factor_nan (a p : float) :
  is_zero_SF p -> is_zero_SF a \/ is_nan_SF a ->
  is_nan_SF (PrimFloat.div (PrimFloat.opp a) p).
Proof.
  intros [sp Hp] Ha. unfold is_nan_SF.
  rewrite FloatAxioms.div_spec, FloatAxioms.opp_spec, Hp.
  destruct Ha as [[sa ->] | ->]; reflexivity.
Qed.


(** ** Linear solver: a zero pivot poisons the right-hand side *)

Lemma for_range_inv_any {S : Type} (P : S -> Prop) (lo hi : nat)
    (body : nat -> S -> S) (s : S) :
  P s -> (forall k t, P t -> P (body k t)) -> P (for_range lo hi body s).
Proof.
  unfold for_range. intros Hs Hstep.
  revert s Hs. induction (seq lo (hi - lo)) as [|k ks IH]; intros s Hs; simpl; auto.
Qed.

Lemma for_range_split {S : Type} (lo mid hi : nat) (body : nat -> S -> S) (s : S) :
  lo <= mid <= hi ->
  for_range lo hi body s = for_range mid hi body (for_range lo mid body s).
Proof.
  intros Hm. unfold for_range.
  replace (hi - lo) with ((mid - lo) + (hi - mid)) by lia.
  rewrite seq_app, fold_left_app. by replace (lo + (mid - lo)) with mid by lia.
Qed.

Lemma for_range_first {S : Type} (lo hi : nat) (body : nat -> S -> S) (s : S) :
  lo < hi -> for_range lo hi body s = for_range (Datatypes.S lo) hi body (body lo s).
Proof.
  intros Hlt. unfold for_range.
  replace (hi - lo) with (Datatypes.S (hi - Datatypes.S lo)) by lia. reflexivity.
Qed.

Lemma find_pivot_spec (A : list (list float)) (i n : nat) :
  (find_pivot A i n).1 = PrimFloat.abs (mat_get A (find_pivot A i n).2 i)
  /\ i <= (find_pivot A i n).2
  /\ ((find_pivot A i n).2 < n \/ (find_pivot A i n).2 = i)
  /\ (is_zero_SF (find_pivot A i n).1 ->
      (find_pivot A i n).2 = i
      /\ forall k, i < k < n -> is_zero_SF (mat_get A k i) \/ is_nan_SF (mat_get A k i)).
Proof.
  unfold find_pivot. destruct (decide (i + 1 <= n)) as [Hle|Hgt].
  - apply (for_range_inv
      (fun k (mr : float * nat) =>
         mr.1 = PrimFloat.abs (mat_get A mr.2 i)
         /\ i <= mr.2
         /\ (mr.2 < k \/ mr.2 = i)
         /\ (is_zero_SF mr.1 ->
             mr.2 = i
             /\ forall k', i < k' < k ->
                  is_zero_SF (mat_get A k' i) \/ is_nan_SF (mat_get A k' i))));
      [exact Hle | | ].
    + simpl. repeat split; auto with lia.
    + intros k [m r] Hk (Hm & Hr & Hrk & Hz). simpl in *.
      destruct (PrimFloat.ltb m (PrimFloat.abs (mat_get A k i))) eqn:Hcmp; simpl.
      * split; [reflexivity|]. split; [lia|]. split; [lia|].
        intros Hzero. rewrite Hm, abs_not_below_zero in Hcmp by exact Hzero.
        discriminate.
      * split; [exact Hm|]. split; [exact Hr|]. split; [lia|].
        intros Hzero. destruct (Hz Hzero) as [Hri Hbelow]. split; [exact Hri|].
        intros k' Hk'. destruct (decide (k' = k)) as [->|Hne].
        -- by apply (not_above_zero m).
        -- apply Hbelow. lia.
  - rewrite for_range_empty by lia. simpl. repeat split; auto with lia.
Qed.

Lemma mat_get_set (A : list (list float)) (r c r' c' : nat) (v : float) :
  mat_get (mat_set A r c v) r' c'
  = if decide (r = r' /\ c = c' /\ r < length A) then v else mat_get A r' c'.
Proof.
  case_decide as Hd.
  - destruct Hd as (<- & <- & Hr). by apply mat_get_set_eq.
  - destruct (decide (r = r' /\ c = c')) as [[<- <-]|Hne].
    + unfold mat_get, mat_set. rewrite list_lookup_alter_eq.
      by rewrite lookup_ge_None_2 by lia.
    + apply mat_get_set_ne. destruct (decide (r = r')); [right | left]; naive_solver.
Qed.

Lemma mat_set_same (A : list (list float)) (r c r' c' : nat) :
  mat_get (mat_set A r c (mat_get A r c)) r' c' = mat_get A r' c'.
Proof.
  rewrite mat_get_set. case_decide as Hd; [|reflexivity].
  by destruct Hd as (<- & <- & _).
Qed.

Lemma swap_rows_self (A : list (list float)) (i n r c : nat) :
  mat_get (swap_rows A i i n) r c = mat_get A r c.
Proof.
  unfold swap_rows.
  apply (for_range_inv_any (fun B => mat_get B r c = mat_get A r c)); [reflexivity|].
  intros k B HB. rewrite <- HB, mat_get_set.
  case_decide as Hd; [|apply mat_set_same].
  by destruct Hd as (<- & <- & _).
Qed.

Lemma swap_rhs_get (b : list float) (i m k : nat) :
  arr_get (swap_rhs b i m) k
  = if decide (k = i) then arr_get b m
    else if decide (k = m) then arr_get b i
    else arr_get b k.
Proof.
  unfold swap_rhs. destruct (decide (k = i)) as [->|Hki].
  - apply arr_get_set_eq.
  - rewrite arr_get_set_ne by done. destruct (decide (k = m)) as [->|Hkm].
    + apply arr_get_set_eq.
    + by rewrite arr_get_set_ne.
Qed.

Lemma eliminate_row_length (i n k : nat) (A : list (list float)) (b : list float) :
  length (eliminate_row i n k (A, b)).1 = length A.
Proof.
  unfold eliminate_row. simpl.
  apply (for_range_inv_any (fun B => length B = length A)); [reflexivity|].
  intros j B HB. destruct (Nat.eqb i j); by rewrite length_mat_set.
Qed.

Lemma eliminate_row_rhs (i n k : nat) (A : list (list float)) (b : list float) (j : nat) :
  arr_get (eliminate_row i n k (A, b)).2 j
  = if decide (j = k)
    then PrimFloat.add (arr_get b k)
           (PrimFloat.mul (PrimFloat.div (PrimFloat.opp (mat_get A k i)) (mat_get A i i))
              (arr_get b i))
    else arr_get b j.
Proof.
  unfold eliminate_row. simpl. destruct (decide (j = k)) as [->|Hne].
  - apply arr_get_set_eq.
  - by rewrite arr_get_set_ne.
Qed.

Lemma forward_step_length (n i : nat) (A : list (list float)) (b : list float) :
  length (forward_step n i (A, b)).1 = length A.
Proof.
  unfold forward_step.
  apply (for_range_inv_any
           (fun Ab : list (list float) * list float => length Ab.1 = length A)).
  - simpl. apply swap_rows_frame.
  - intros k [B bb] HB. simpl in HB. by rewrite eliminate_row_length.
Qed.

Lemma forward_upto_length (n i : nat) (A : list (list float)) (b : list float) :
  length (forward_upto n i A b).1 = length A.
Proof.
  unfold forward_upto.
  apply (for_range_inv_any
           (fun Ab : list (list float) * list float => length Ab.1 = length A));
    [reflexivity|].
  intros k [B bb] HB. simpl in HB. by rewrite forward_step_length.
Qed.

(** Pivot column [i] with a zero pivot: every row below gets the factor
    [NaN], and with it a [NaN] right-hand side. *)
Lemma forward_step_zero_pivot (n i : nat) (A : list (list float)) (b : list float) :
  length A = n ->
  is_zero_SF (mat_get A (find_pivot A i n).2 i) ->
  forall k, i < k < n -> is_nan_SF (arr_get (forward_step n i (A, b)).2 k).
Proof.
  intros Hlen Hpiv.
  destruct (find_pivot_spec A i n) as (Hmax & _ & _ & Hzero).
  destruct Hzero as [Hrow Hbelow]; [rewrite Hmax; by apply abs_zero|].
  rewrite Hrow in Hpiv.
  unfold forward_step. rewrite Hrow.
  set (A1 := swap_rows A i i n). set (b1 := swap_rhs b i i).
  assert (HA1 : forall r c, mat_get A1 r c = mat_get A r c)
    by (intros; apply swap_rows_self).
  assert (Hlen1 : length A1 = n) by (subst A1; by rewrite (proj1 (swap_rows_frame _ _ _ _))).
  destruct (decide (i + 1 <= n)) as [Hle|Hgt]; [|intros k Hk; lia].
  pose proof (for_range_inv
    (fun k (Ab : list (list float) * list float) =>
       length Ab.1 = n
       /\ (forall r c, k <= r \/ r <= i -> mat_get Ab.1 r c = mat_get A r c)
       /\ (forall k', i < k' < k -> is_nan_SF (arr_get Ab.2 k')))
    (i + 1) n (eliminate_row i n) (A1, b1) Hle) as Hinv.
  destruct Hinv as (_ & _ & Hnan); [ | | exact Hnan].
  - simpl. split; [exact Hlen1|]. split; [intros; apply HA1 | intros k' Hk'; lia].
  - intros k [B bb] Hk (HlenB & Hrows & Hnan). simpl in HlenB, Hrows, Hnan.
    split; [by rewrite eliminate_row_length|]. split.
    + intros r c Hr.
      destruct (eliminate_row_frame i n k B bb) as (_ & _ & Hfr); [lia | lia |].
      simpl in Hfr. rewrite Hfr by (left; lia). apply Hrows. lia.
    + intros k' Hk'. rewrite eliminate_row_rhs.
      destruct (decide (k' = k)) as [->|Hne]; [|apply Hnan; lia].
      apply nan_add_r, nan_mul_l.
      rewrite !Hrows by lia. apply factor_nan; [exact Hpiv | apply Hbelow; lia].
Qed.

(** A later pivot column keeps the right-hand side [NaN] from its row on. *)
Lemma forward_step_nan_rhs (n j : nat) (A : list (list float)) (b : list float) :
  (forall k, j <= k < n -> is_nan_SF (arr_get b k)) ->
  forall k, j <= k < n -> is_nan_SF (arr_get (forward_step n j (A, b)).2 k).
Proof.
  intros Hb. unfold forward_step.
  destruct (find_pivot_spec A j n) as (_ & Hge & Hlt & _).
  set (m := (find_pivot A j n).2) in *.
  apply (for_range_inv_any
    (fun Ab : list (list float) * list float =>
       forall k, j <= k < n -> is_nan_SF (arr_get Ab.2 k))).
  - simpl. intros k Hk. rewrite swap_rhs_get.
    destruct (decide (k = j)) as [->|Hkj].
    + destruct Hlt as [Hlt| ->]; apply Hb; lia.
    + destruct (decide (k = m)); apply Hb; lia.
  - intros k [B bb] HB k' Hk'. simpl in HB. rewrite eliminate_row_rhs.
    destruct (decide (k' = k)) as [->|Hne]; [|by apply HB].
    apply nan_add_l. by apply HB.
Qed.

(** When the pivot selected for a column before the last is zero, the last
    entry of the eliminated right-hand side is [NaN]. *)
Lemma forward_zero_pivot_rhs (A : list (list float)) (b : list float) (i : nat) :
  S i < length A ->
  is_zero_SF (selected_pivot A b i) ->
  is_nan_SF (arr_get (forward (length A) A b).2 (length A - 1)).
Proof.
  intros Hi Hpiv. set (n := length A) in *.
  unfold forward. rewrite (for_range_split 0 i n) by lia.
  fold (forward_upto n i A b).
  pose proof (forward_upto_length n i A b) as Hlen.
  unfold selected_pivot in Hpiv. fold n in Hpiv.
  destruct (forward_upto n i A b) as [Ai bi]. simpl in Hlen, Hpiv.
  rewrite for_range_first by lia.
  pose proof (forward_step_zero_pivot n i Ai bi Hlen Hpiv) as Hnan.
  pose proof (forward_step_length n i Ai bi) as Hlen'.
  destruct (forward_step n i (Ai, bi)) as [A1 b1]. simpl in Hnan, Hlen'.
  pose proof (for_range_inv
    (fun j (Ab : list (list float) * list float) =>
       (forall k, j <= k < n -> is_nan_SF (arr_get Ab.2 k))
       /\ is_nan_SF (arr_get Ab.2 (n - 1)))
    (S i) n (forward_step n) (A1, b1)) as Hinv.
  destruct Hinv as [_ Hlast]; [lia | | | exact Hlast].
  - simpl. split; [intros k Hk | ]; apply Hnan; lia.
  - intros j [B bb] Hj [Hall _]. simpl in Hall.
    pose proof (forward_step_nan_rhs n j B bb Hall) as Hstep.
    split; [intros k Hk | ]; apply Hstep; lia.
Qed.

(** When the pivot selected for the last column is zero, it is the entry
    by which back substitution divides first. *)
Lemma forward_last_pivot (A : list (list float)) (b : list float) (m : nat) :
  length A = S m ->
  mat_get (forward (S m) A b).1 m m = selected_pivot A b m.
Proof.
  intros Hlen. unfold selected_pivot, forward. rewrite Hlen.
  rewrite (for_range_split 0 m (S m)) by lia. fold (forward_upto (S m) m A b).
  destruct (forward_upto (S m) m A b) as [Ai bi]. simpl.
  rewrite for_range_first by lia. rewrite for_range_empty by lia.
  unfold forward_step, find_pivot. rewrite !for_range_empty by lia. simpl.
  apply swap_rows_self.
Qed.


(** ** Linear solver: the claims *)

(** C1 (as the code has it): [solve] has no pivot check and no error
    result.  For every system it returns normally a vector of length [n];
    and whenever the pivot selected for some column is zero, the division by
    it goes ahead and the last component of the returned vector is
    [Infinity], [-Infinity] or [NaN]. *)
Theorem solve_zero_pivot_not_reported (A : list (list float)) (b : list float) :
  exists x : list float,
    solve_call A b = Returned x
    /\ length x = length A
    /\ forall i, i < length A ->
         PrimFloat.is_zero (selected_pivot A b i) = true ->
         not_finite (arr_get x (length A - 1)) = true.
Proof.
  exists (solve A b). split; [reflexivity|].
  unfold solve, solve_run.
  destruct (forward (length A) A b) as [A' b'] eqn:Ef. simpl.
  split; [apply length_back_substitute|].
  intros i Hi Hz. apply is_zero_SF_of_is_zero in Hz.
  destruct (length A) as [|m] eqn:Hlen; [lia|].
  replace (S m - 1) with m by lia.
  rewrite back_substitute_last.
  destruct (decide (i = m)) as [->|Him].
  - apply div_by_zero_not_finite.
    pose proof (forward_last_pivot A b m Hlen) as Hlast.
    rewrite Ef in Hlast. simpl in Hlast. by rewrite Hlast.
  - apply not_finite_of_SF. left. apply nan_div_l, nan_sub_l.
    pose proof (forward_zero_pivot_rhs A b i) as Hrhs.
    rewrite Hlen, Ef in Hrhs. simpl in Hrhs.
    replace (m - 0) with m in Hrhs by lia. apply Hrhs; [lia | exact Hz].
Qed.

Lemma solve_zero_pivot_not_reported_witness :
  PrimFloat.is_zero (selected_pivot zero_row_A zero_row_b 1) = true
  /\ exists x : list float,
       solve_call zero_row_A zero_row_b = Returned x
       /\ not_finite (arr_get x 1) = true.
Proof.
  destruct (solve_zero_pivot_not_reported zero_row_A zero_row_b) as (x & Hx & _ & Hnf).
  split; [vm_compute; reflexivity|].
  exists x. split; [exact Hx|].
  apply (Hnf 1); [simpl; lia | vm_compute; reflexivity].
Defined.

(** C1 as stated fails: the system [x + 2y = 3], [0 = 4] has a zero row;
    [solve] reports no [DegenerateSystem] and returns
    [[-Infinity; Infinity]]. *)
Lemma solve_zero_row_returns_infinity :
  solve_call zero_row_A zero_row_b = Returned [neg_infinity; infinity]
  /\ solve_call zero_row_A zero_row_b <> Raised DegenerateSystem
  /\ existsb not_finite (solve zero_row_A zero_row_b) = true.
Proof. repeat split; (vm_compute; reflexivity) || discriminate. Qed.




(** The same at the level of the estimator: four coincident corners give a
    singular system, and [getHomographyMatrix] returns coefficients that are
    all [NaN]; the system built for the unit square is left eliminated in
    the arrays that were passed to [solve]. *)
Lemma coincident_corners_homography :
  getHomographyMatrix coincident_corners patch_corners
  = Some [nan; nan; nan; nan; nan; nan; nan; nan; 1%float].
Proof. vm_compute. reflexivity. Qed.

Lemma homography_system_is_overwritten :
  exists A b,
    homography_system unit_square unit_square = Some (A, b)
    /\ (solve_run A b).1 <> (A, b).
Proof.
  eexists _, _. split; [vm_compute; reflexivity|].
  vm_compute. discriminate.
Qed.

(** C8: the unit square mapped to itself gives the identity transform. *)
Theorem unit_square_homography :
  getHomographyMatrix unit_square unit_square
  = Some [1; 0; 0; 0; 1; 0; 0; 0; 1]%float.
Proof. vm_compute. reflexivity. Qed.


(** ** Resampler: each destination pixel is written by its own iteration *)

Section Resampler.
Variables (H : list float) (sData : list Z) (sw sh w h : nat).











End Resampler.

